(** * BackChat: the message store, the PubSub wiring and the subscription
      iterator of [src/server.js], as a shallow embedding.

    The server keeps three in-memory arrays ([users], [channels],
    [messages]), one process-wide [PubSub], and hands the GraphQL layer an
    async iterator per [messageAdded] subscription.  JavaScript objects
    that are mutated through a closure (the variables [value] and
    [resolveNext] of a listener, the promises returned by [next()]) live in
    an explicit store and are referred to by their address. *)

From stdpp Require Import base list strings pretty.

(** ** JavaScript values *)

(** A variable that may hold [undefined], [null] or a proper value. *)
Inductive js (A : Type) : Type :=
  | undefined
  | null
  | val (a : A).
Arguments undefined {A}.
Arguments null {A}.
Arguments val {A} a.

(** ToBoolean, as used by [if (x)]. *)
Class Truthy (A : Type) := truthy : A → bool.

#[export] Instance js_truthy {A} `{Truthy A} : Truthy (js A) :=
  λ v, match v with val a => truthy a | _ => false end.

(** A function value is always truthy. The only functions stored in a
    variable here are the [resolve] callbacks of promises; one is
    identified by the address of the promise it settles. *)
Record Resolver := ResolveOf { target : nat }.
#[export] Instance resolver_truthy : Truthy Resolver := λ _, true.

(** The [iterator] variable of [subscribe] is declared and never assigned;
    whatever object it was meant to hold would be truthy. *)
#[export] Instance unit_truthy : Truthy () := λ _, true.

Section Iterator.
Context {Ev : Type} `{Truthy Ev}.

(** The object literal [{ value, done }] that settles a pull. *)
Record IterResult := { result_value : js Ev; done : bool }.

Inductive PState :=
  | Pending
  | Resolved (r : IterResult).

(** The variables [resolveNext] and [value] declared inside one call of
    [next()]; the [listener] created by that call closes over them. *)
Record Env := { resolveNext : js Resolver; value : js Ev }.

(** Modelled from the spec: the imported [PubSub] (package
    graphql-subscriptions, not part of the repository) following the
    Event Bus contract: [subscribe] registers a listener for a topic
    and returns a handle, [publish] notifies the listeners of the topic
    in registration order.  The bus also offers [unsubscribe(handle)];
    server.js never calls it, so it has no counterpart here.  A listener
    is identified by the address of its closure environment. *)
Record PubSub := {
  subscriptions : list (nat * (string * nat));
  subIdCounter : nat
}.

(** Modelled from the spec: [subscribe(topic, listener)] appends the
    listener to the registry and returns the next handle. *)
Definition pubsub_subscribe (triggerName : string) (onMessage : nat)
    (ps : PubSub) : nat * PubSub :=
  let subId := S (subIdCounter ps) in
  (subId,
   {| subscriptions := subscriptions ps ++ [(subId, (triggerName, onMessage))];
      subIdCounter := subId |}).

(** Modelled from the spec: the listeners [publish] calls for a topic, in
    registration order. *)
Definition pubsub_listeners (triggerName : string) (ps : PubSub) : list nat :=
  (λ s, s.2.2) <$> filter (λ s, s.2.1 = triggerName) (subscriptions ps).

(** ** The store *)

Record World := {
  pubsub : PubSub;
  envs : list Env;
  promises : list PState
}.

Definition init : World :=
  {| pubsub := {| subscriptions := []; subIdCounter := 0 |};
     envs := [];
     promises := [] |}.

Definition with_pubsub (ps : PubSub) (w : World) : World :=
  {| pubsub := ps; envs := envs w; promises := promises w |}.
Definition with_envs (es : list Env) (w : World) : World :=
  {| pubsub := pubsub w; envs := es; promises := promises w |}.
Definition with_promises (ps : list PState) (w : World) : World :=
  {| pubsub := pubsub w; envs := envs w; promises := ps |}.

(** [new Promise(...)]: a fresh pending promise at the next address. *)
Definition new_promise (st : PState) (w : World) : nat * World :=
  (length (promises w), with_promises (promises w ++ [st]) w).

(** Calling the [resolve] callback of promise [p]: only a pending promise
    is settled, a settled one keeps its result. *)
Definition resolve (p : nat) (r : IterResult) (w : World) : World :=
  match promises w !! p with
  | Some Pending => with_promises (<[p := Resolved r]> (promises w)) w
  | _ => w
  end.

Definition get_value (a : nat) (w : World) : js Ev :=
  match envs w !! a with Some e => value e | None => undefined end.
Definition get_resolveNext (a : nat) (w : World) : js Resolver :=
  match envs w !! a with Some e => resolveNext e | None => undefined end.
Definition set_value (a : nat) (v : js Ev) (w : World) : World :=
  match envs w !! a with
  | Some e => with_envs (<[a := {| resolveNext := resolveNext e; value := v |}]> (envs w)) w
  | None => w
  end.
Definition set_resolveNext (a : nat) (f : js Resolver) (w : World) : World :=
  match envs w !! a with
  | Some e => with_envs (<[a := {| resolveNext := f; value := value e |}]> (envs w)) w
  | None => w
  end.

(** ** server.js, lines 116-122: the listener of one [next()] call

<<
    const listener = (event) => {
      value = event;
      if (resolveNext) {
        resolveNext({ value, done: false });
        resolveNext = null;
      }
    };
>>
*)
Definition listener (a : nat) (event : Ev) (w : World) : World :=
  let w := set_value a (val event) w in
  if truthy (get_resolveNext a w) then
    match get_resolveNext a w with
    | val f =>
        let w := resolve (target f) {| result_value := get_value a w; done := false |} w in
        set_resolveNext a null w
    | _ => w
    end
  else w.

(** The listeners of [ls] are called one after the other with the
    payload. *)
Definition notify (ls : list nat) (payload : Ev) (w : World) : World :=
  foldl (λ w a, listener a payload w) w ls.

(** Modelled from the spec: [pubsub.publish(topic, payload)] of the
    imported bus.  Every listener registered for the topic when the call
    starts is invoked, in registration order. *)
Definition publish (topic : string) (payload : Ev) (w : World) : World :=
  notify (pubsub_listeners topic (pubsub w)) payload w.

(** ** server.js, lines 97-143: [Subscription.messageAdded.subscribe] *)

(** What the iterator object closes over: [topicName] and the variable
    [iterator]. *)
Record Session := { topicName : string; iterator : js () }.

(** Line 98 builds the topic with the template literal
    [`MESSAGE_ADDED_${channelId}`]; [iterator] is declared on line 100
    and left unassigned. *)
Definition subscribe (channelId : string) : Session :=
  {| topicName := "MESSAGE_ADDED_" +:+ channelId; iterator := undefined |}.

(** [next()], lines 105-134.  The executor of the new promise runs
    synchronously: when [iterator] is truthy it returns at once and the
    promise is never settled; otherwise it declares fresh [resolveNext]
    and [value], registers a fresh listener (the handle returned by
    [pubsub.subscribe] and the local array [listeners] are dropped) and
    tests [value]. *)
Definition next (s : Session) (w : World) : nat * World :=
  let '(p, w) := new_promise Pending w in
  if truthy (iterator s) then (p, w)
  else
    let a := length (envs w) in
    let w := with_envs (envs w ++ [{| resolveNext := undefined; value := undefined |}]) w in
    let '(_, ps) := pubsub_subscribe (topicName s) a (pubsub w) in
    let w := with_pubsub ps w in
    if truthy (get_value a w) then
      let w := resolve p {| result_value := get_value a w; done := false |} w in
      (p, set_value a null w)
    else
      (p, set_resolveNext a (val (ResolveOf p)) w).

(** [return()], lines 135-137:
    [Promise.resolve({ value: undefined, done: true })]. *)
Definition end_of_sequence : IterResult :=
  {| result_value := undefined; done := true |}.

Definition return_ (s : Session) (w : World) : nat * World :=
  new_promise (Resolved end_of_sequence) w.

(** ** Calls the surrounding layers make, and their traces

    An iterator keeps no state of its own: all it closes over is the
    topic and the unassigned [iterator].  A call of [next()] or
    [return()] on a session of channel [c] is therefore the call on
    [subscribe c]; the number [s] only names the iterator object the
    consumer makes the call on. *)

Inductive op :=
  | ONext (s : nat) (channelId : string)
  | OReturn (s : nat) (channelId : string)
  | OPublish (topic : string) (payload : Ev).

Definition step (w : World) (o : op) : World :=
  match o with
  | ONext _ c => (next (subscribe c) w).2
  | OReturn _ c => (return_ (subscribe c) w).2
  | OPublish t e => publish t e w
  end.

Definition run (ops : list op) (w : World) : World := foldl step w ops.

Definition reachable (w : World) : Prop := ∃ ops, w = run ops init.

(** ** What a consumer observes along a trace *)


(** The event a settled promise carries, when it is not end-of-sequence. *)
Definition carried (st : PState) : option Ev :=
  match st with
  | Resolved {| result_value := val e; done := false |} => Some e
  | _ => None
  end.

Definition delivered (w : World) (p : nat) : option Ev :=
  promises w !! p ≫= carried.


(** The payloads of the [publish] calls of a trace for one topic. *)
Fixpoint published (t : string) (ops : list op) : list Ev :=
  match ops with
  | [] => []
  | OPublish t' e :: ops' =>
      if decide (t' = t) then e :: published t ops' else published t ops'
  | _ :: ops' => published t ops'
  end.

Definition first_published (t : string) (ops : list op) : option Ev :=
  head (published t ops).

(** What the pull made just before [ops] ends up as. *)
Definition outcome (t : string) (ops : list op) : PState :=
  match first_published t ops with
  | Some e => Resolved {| result_value := val e; done := false |}
  | None => Pending
  end.




(** The listeners currently registered for a topic. *)
Definition listener_count (t : string) (w : World) : nat :=
  length (pubsub_listeners t (pubsub w)).

(** The pulls that are still waiting: the promises some listener's
    [resolveNext] would settle. *)
Definition outstanding (t : string) (w : World) : list nat :=
  omap (λ a, match get_resolveNext a w with val f => Some (target f) | _ => None end)
       (pubsub_listeners t (pubsub w)).

End Iterator.

Arguments IterResult : clear implicits.
Arguments PState : clear implicits.
Arguments Env : clear implicits.
Arguments World : clear implicits.
Arguments op : clear implicits.

(** ** The in-memory stores and the resolvers (server.js, lines 16-94) *)

Record User := { user_id : string; username : string }.
Record Channel := { channel_id : string; name : string }.
Record Message := {
  id : string;
  content : string;
  createdAt : string;
  senderId : string;
  channelId : string
}.

Definition users : list User :=
  [ {| user_id := "1"; username := "user1" |};
    {| user_id := "2"; username := "user2" |} ].

Definition channels : list Channel :=
  [ {| channel_id := "1"; name := "general" |};
    {| channel_id := "2"; name := "random" |} ].

(** The payload [{ messageAdded: newMessage }]; an object is truthy. *)
Record Payload := { messageAdded : Message }.
#[export] Instance payload_truthy : Truthy Payload := λ _, true.

(** The mutable part of the module: the [messages] array and [pubsub]. *)
Record Server := { messages : list Message; bus : World Payload }.

Definition boot : Server := {| messages := []; bus := init |}.

(** The [Query] resolvers, lines 68-72.  [find] gives the first element
    that passes the test or nothing, [filter] keeps the order. *)
Definition Query_users : list User := users.

Definition Query_user (id : string) : option User :=
  find (λ user, bool_decide (user_id user = id)) users.

Definition Query_channels : list Channel := channels.

Definition Query_channel (id : string) : option Channel :=
  find (λ channel, bool_decide (channel_id channel = id)) channels.

Definition Query_messages (channelId0 : string) (st : Server) : list Message :=
  filter (λ message, channelId message = channelId0) (messages st).

(** [Message.sender], line 75. *)
Definition Message_sender (message : Message) : option User :=
  find (λ user, bool_decide (user_id user = senderId message)) users.

(** [messages.push(m)] and [pubsub.publish(topic, payload)] as steps of
    the module state. *)
Definition messages_push (m : Message) (st : Server) : Server :=
  {| messages := messages st ++ [m]; bus := bus st |}.

Definition pubsub_publish (topic : string) (payload : Payload) (st : Server) : Server :=
  {| messages := messages st; bus := publish topic payload (bus st) |}.

(** [Mutation.sendMessage], lines 78-93; [now] is what
    [new Date().toISOString()] returns at the call.  [publish] calls the
    listeners before it returns, and a listener is code of the process
    that can read the module's [messages]; the [publish] of the bus is
    therefore a step [emit] of the whole module state, applied where line
    90 calls it. *)
Definition sendMessage_via (emit : string → Payload → Server → Server)
    (content senderId channelId now : string) (st : Server)
    : Message * Server :=
  let newMessage :=
    {| id := pretty (length (messages st) + 1);
       content := content;
       createdAt := now;
       senderId := senderId;
       channelId := channelId |} in
  let st := messages_push newMessage st in
  let topicName := "MESSAGE_ADDED_" +:+ channelId in
  let st := emit topicName {| messageAdded := newMessage |} st in
  (newMessage, st).

(** The mutation on the bus of the module. *)
Definition sendMessage : string → string → string → string → Server → Message * Server :=
  sendMessage_via pubsub_publish.

(** The requests that reach the resolvers. *)
Inductive request :=
  | SendMessage (content senderId channelId now : string)
  | Next (channelId : string)
  | Return (channelId : string).

Definition handle (st : Server) (r : request) : Server :=
  match r with
  | SendMessage content senderId channelId now =>
      (sendMessage content senderId channelId now st).2
  | Next c => {| messages := messages st; bus := (next (subscribe c) (bus st)).2 |}
  | Return c => {| messages := messages st; bus := (return_ (subscribe c) (bus st)).2 |}
  end.

Definition serve (rs : list request) (st : Server) : Server := foldl handle st rs.

(** How many of the requests are [next()] calls on a session of topic [t]. *)
Fixpoint next_calls (t : string) (rs : list request) : nat :=
  match rs with
  | [] => 0
  | Next c :: rs' =>
      if decide (topicName (subscribe c) = t) then S (next_calls t rs')
      else next_calls t rs'
  | _ :: rs' => next_calls t rs'
  end.

(** How many of the requests are [sendMessage] calls, and the contents
    sent to channel [c], in call order. *)
Fixpoint send_count (rs : list request) : nat :=
  match rs with
  | [] => 0
  | SendMessage _ _ _ _ :: rs' => S (send_count rs')
  | _ :: rs' => send_count rs'
  end.

Fixpoint sent_to (c : string) (rs : list request) : list string :=
  match rs with
  | [] => []
  | SendMessage text _ channel _ :: rs' =>
      if decide (channel = c) then text :: sent_to c rs' else sent_to c rs'
  | _ :: rs' => sent_to c rs'
  end.

(** A string payload for small traces; the empty string is falsy. *)
#[export] Instance string_truthy : Truthy string :=
  λ s, match s with EmptyString => false | _ => true end.

(** ** The shape of reachable stores *)

Section Invariant.
Context {Ev : Type} `{Truthy Ev}.

(** The i-th registered listener is the closure of the i-th [next()]
    call; a [resolveNext] that is still a function belongs to exactly one
    closure, whose [value] was never written and whose promise is still
    pending. *)
Definition wf (w : World Ev) : Prop :=
  (λ s, s.2.2) <$> subscriptions (pubsub w) = seq 0 (length (envs w))
  ∧ (∀ a a' e e' f f',
       envs w !! a = Some e → envs w !! a' = Some e' →
       resolveNext e = val f → resolveNext e' = val f' →
       target f = target f' → a = a')
  ∧ (∀ a e f,
       envs w !! a = Some e → resolveNext e = val f →
       promises w !! target f = Some Pending ∧ value e = undefined).

(** The pull behind promise [p] is waiting on topic [t] through the
    listener at [a]. *)
Definition armed (p a : nat) (t : string) (w : World Ev) : Prop :=
  (∃ h, (h, (t, a)) ∈ subscriptions (pubsub w))
  ∧ envs w !! a = Some {| resolveNext := val (ResolveOf p); value := undefined |}
  ∧ promises w !! p = Some Pending.

End Invariant.

Definition live (st : Server) : Prop := ∃ rs, st = serve rs boot.

(** * Properties *)

Section IteratorFacts.
Context {Ev : Type} `{Truthy Ev}.
Implicit Types (w : World Ev) (e : Ev) (t c : string) (a p : nat).

Lemma next_eq c w :
  next (subscribe c) w =
    (length (promises w),
     {| pubsub :=
          {| subscriptions :=
               subscriptions (pubsub w)
                 ++ [(S (subIdCounter (pubsub w)),
                      (topicName (subscribe c), length (envs w)))];
             subIdCounter := S (subIdCounter (pubsub w)) |};
        envs := envs w ++ [{| resolveNext := val (ResolveOf (length (promises w)));
                              value := undefined |}];
        promises := promises w ++ [Pending] |}).
Proof.
  destruct w as [ps es pr]. unfold next, new_promise. simpl.
  unfold get_value, set_resolveNext. simpl.
  rewrite lookup_app_r by lia. rewrite Nat.sub_diag. simpl.
  unfold with_envs. simpl. f_equal. f_equal.
  rewrite insert_app_r_alt by lia. rewrite Nat.sub_diag. reflexivity.
Qed.

Lemma return_eq c w :
  return_ (subscribe c) w =
    (length (promises w),
     {| pubsub := pubsub w; envs := envs w;
        promises := promises w ++ [Resolved end_of_sequence] |}).
Proof. reflexivity. Qed.

(** The listener of an address that holds no closure does nothing. *)
Lemma listener_none a e w : envs w !! a = None → listener a e w = w.
Proof.
  intros Hn. unfold listener, set_value, get_resolveNext. rewrite Hn.
  simpl. rewrite Hn. reflexivity.
Qed.

(** A listener whose [resolveNext] is not a function only records the
    event in [value]. *)
Lemma listener_idle a e w env :
  envs w !! a = Some env → (∀ f, resolveNext env ≠ val f) →
  listener a e w =
    with_envs (<[a := {| resolveNext := resolveNext env; value := val e |}]> (envs w)) w.
Proof.
  intros Ha Hf. unfold listener, set_value, get_resolveNext. rewrite Ha. simpl.
  rewrite list_lookup_insert_eq by (eapply lookup_lt_Some; eauto). simpl.
  destruct (resolveNext env) as [| |f]; simpl; try reflexivity.
  exfalso. eapply Hf. reflexivity.
Qed.

(** A listener whose [resolveNext] is the callback of [p] settles [p]
    with the event and clears [resolveNext]. *)
Lemma listener_fire a e w env f :
  envs w !! a = Some env → resolveNext env = val f →
  listener a e w =
    {| pubsub := pubsub w;
       envs := <[a := {| resolveNext := null; value := val e |}]> (envs w);
       promises := promises (resolve (target f)
                               {| result_value := val e; done := false |} w) |}.
Proof.
  intros Ha Hf. pose proof (lookup_lt_Some _ _ _ Ha) as Hlt.
  unfold listener, set_value, get_resolveNext, get_value. rewrite Ha. simpl.
  rewrite list_lookup_insert_eq by done. simpl. rewrite Hf. simpl.
  unfold resolver_truthy. unfold set_resolveNext, resolve. simpl.
  destruct (promises w !! target f) as [[|r]|]; simpl;
    rewrite list_lookup_insert_eq by done; unfold with_envs; simpl;
    rewrite list_insert_insert_eq; reflexivity.
Qed.

(** The three ways a listener call can go. *)
Lemma listener_cases a e w :
  (envs w !! a = None ∧ listener a e w = w)
  ∨ (∃ env, envs w !! a = Some env ∧ (∀ f, resolveNext env ≠ val f)
       ∧ listener a e w =
           with_envs (<[a := {| resolveNext := resolveNext env; value := val e |}]> (envs w)) w)
  ∨ (∃ env f, envs w !! a = Some env ∧ resolveNext env = val f
       ∧ listener a e w =
           {| pubsub := pubsub w;
              envs := <[a := {| resolveNext := null; value := val e |}]> (envs w);
              promises := promises (resolve (target f)
                                      {| result_value := val e; done := false |} w) |}).
Proof.
  destruct (envs w !! a) as [env|] eqn:Ha.
  - destruct (resolveNext env) as [| |f] eqn:Hf.
    + right; left. exists env. split; [done|]. split; [congruence|].
      apply listener_idle; [done | congruence].
    + right; left. exists env. split; [done|]. split; [congruence|].
      apply listener_idle; [done | congruence].
    + right; right. exists env, f. split; [done|]. split; [done|].
      by eapply listener_fire.
  - left. split; [done|]. by apply listener_none.
Qed.

Ltac listener_split a e w :=
  destruct (listener_cases a e w)
    as [[? ->] | [(? & ? & ? & ->) | (? & ? & ? & ? & ->)]].

Lemma resolve_lookup p r w q :
  (p = q ∧ promises w !! p = Some Pending
     ∧ promises (resolve p r w) !! q = Some (Resolved r))
  ∨ promises (resolve p r w) !! q = promises w !! q.
Proof.
  unfold resolve. destruct (promises w !! p) as [[|r']|] eqn:Hp; simpl; auto.
  destruct (decide (p = q)) as [<-|Hne].
  - left. split; [done|]. split; [done|].
    apply list_lookup_insert_eq. by eapply lookup_lt_Some.
  - right. by apply list_lookup_insert_ne.
Qed.

Lemma listener_pubsub a e w : pubsub (listener a e w) = pubsub w.
Proof. listener_split a e w; reflexivity. Qed.

Lemma listener_envs_length a e w : length (envs (listener a e w)) = length (envs w).
Proof. listener_split a e w; simpl; try done; apply length_insert. Qed.

Lemma listener_envs_other a e w a' :
  a' ≠ a → envs (listener a e w) !! a' = envs w !! a'.
Proof.
  intros Hne. listener_split a e w; simpl; try done;
    by apply list_lookup_insert_ne.
Qed.

(** Whatever a listener call leaves in [resolveNext] was there before:
    a call never arms a pull. *)
Lemma listener_resolveNext a e w a' env' f :
  envs (listener a e w) !! a' = Some env' → resolveNext env' = val f →
  a' ≠ a ∧ envs w !! a' = Some env'.
Proof.
  intros Ha' Hf'. destruct (decide (a' = a)) as [->|Hne].
  - exfalso. revert Ha'. listener_split a e w; simpl; intros Ha'.
    + congruence.
    + rewrite list_lookup_insert_eq in Ha' by (by eapply lookup_lt_Some).
      injection Ha' as <-. simpl in Hf'. naive_solver.
    + rewrite list_lookup_insert_eq in Ha' by (by eapply lookup_lt_Some).
      injection Ha' as <-. simpl in Hf'. congruence.
  - split; [done|]. by rewrite listener_envs_other in Ha'.
Qed.

(** A settled promise is never touched again. *)
Lemma listener_settled a e w p r :
  promises w !! p = Some (Resolved r) →
  promises (listener a e w) !! p = Some (Resolved r).
Proof.
  intros Hp. listener_split a e w; simpl; try done.
  match goal with |- promises (resolve ?p' ?r' w) !! p = _ =>
    destruct (resolve_lookup p' r' w p) as [(-> & Hd & _) | ->] end;
    [congruence | done].
Qed.

Lemma listener_wf a e w : wf w → wf (listener a e w).
Proof.
  intros (Hsub & Huniq & Hpend). unfold wf.
  rewrite listener_pubsub, listener_envs_length. split; [done|]. split.
  - intros a1 a2 e1 e2 f1 f2 H1 H2 Hf1 Hf2 Ht.
    destruct (listener_resolveNext _ _ _ _ _ _ H1 Hf1) as [_ H1'].
    destruct (listener_resolveNext _ _ _ _ _ _ H2 Hf2) as [_ H2'].
    eauto.
  - intros a1 e1 f1 H1 Hf1.
    destruct (listener_resolveNext _ _ _ _ _ _ H1 Hf1) as [Hne H1'].
    destruct (Hpend _ _ _ H1' Hf1) as [Hp Hv]. split; [|done].
    listener_split a e w; simpl; try done.
    match goal with |- promises (resolve ?p' ?r' w) !! ?q = _ =>
      destruct (resolve_lookup p' r' w q) as [(Hd & _ & _) | ->] end;
      [|done].
    exfalso. apply Hne. symmetry. eauto.
Qed.

(** *** One [publish]: a run of listener calls *)

Lemma notify_cons a ls e w : notify (a :: ls) e w = notify ls e (listener a e w).
Proof. reflexivity. Qed.

Lemma notify_pubsub ls e w : pubsub (notify ls e w) = pubsub w.
Proof.
  revert w. induction ls as [|a ls IH]; intros w; [done|].
  rewrite notify_cons, IH. apply listener_pubsub.
Qed.

Lemma notify_wf ls e w : wf w → wf (notify ls e w).
Proof.
  revert w. induction ls as [|a ls IH]; intros w Hw; [done|].
  rewrite notify_cons. apply IH. by apply listener_wf.
Qed.

Lemma notify_settled ls e w p r :
  promises w !! p = Some (Resolved r) →
  promises (notify ls e w) !! p = Some (Resolved r).
Proof.
  revert w. induction ls as [|a ls IH]; intros w Hp; [done|].
  rewrite notify_cons. apply IH. by apply listener_settled.
Qed.

(** A waiting pull is not disturbed by the listener of another closure. *)
Lemma listener_armed a' e w p a t :
  wf w → armed p a t w → a' ≠ a → armed p a t (listener a' e w).
Proof.
  intros (_ & Huniq & _) (Hsub & Henv & Hp) Hne. unfold armed.
  rewrite listener_pubsub. split; [done|]. split.
  - rewrite listener_envs_other by done. done.
  - listener_split a' e w; simpl; try done.
    match goal with |- promises (resolve ?p' ?r' w) !! ?q = _ =>
      destruct (resolve_lookup p' r' w q) as [(Hd & _ & _) | ->] end;
      [|done].
    exfalso. apply Hne. eapply Huniq; eauto.
Qed.

Lemma notify_armed ls e w p a t :
  wf w → armed p a t w → a ∉ ls → armed p a t (notify ls e w).
Proof.
  revert w. induction ls as [|a' ls IH]; intros w Hw Ha Hnin; [done|].
  rewrite notify_cons. apply not_elem_of_cons in Hnin as [Hne Hnin].
  apply IH; [by apply listener_wf | | done].
  apply listener_armed; auto.
Qed.

(** The listener of a waiting pull settles it with the event. *)
Lemma listener_armed_fires e w p a t :
  armed p a t w →
  promises (listener a e w) !! p
    = Some (Resolved {| result_value := val e; done := false |}).
Proof.
  intros (_ & Henv & Hp).
  erewrite listener_fire by (first [exact Henv | reflexivity]). simpl.
  match goal with |- promises (resolve ?p' ?r' w) !! ?q = _ =>
    destruct (resolve_lookup p' r' w q) as [(_ & _ & Hd) | Hd] end;
    [done|].
  unfold resolve in Hd |- *. simpl in *. rewrite Hp in Hd |- *. simpl in *.
  rewrite list_lookup_insert_eq; [done|]. by eapply lookup_lt_Some.
Qed.

Lemma notify_fires ls e w p a t :
  wf w → armed p a t w → a ∈ ls →
  promises (notify ls e w) !! p
    = Some (Resolved {| result_value := val e; done := false |}).
Proof.
  revert w. induction ls as [|a' ls IH]; intros w Hw Ha Hin.
  - by apply elem_of_nil in Hin.
  - rewrite notify_cons. destruct (decide (a' = a)) as [->|Hne].
    + apply notify_settled. by eapply listener_armed_fires.
    + apply elem_of_cons in Hin as [->|Hin]; [done|].
      apply IH; [by apply listener_wf | | done].
      apply listener_armed; auto.
Qed.

Lemma listeners_elem a t (ps : PubSub) :
  a ∈ pubsub_listeners t ps ↔ ∃ h, (h, (t, a)) ∈ subscriptions ps.
Proof.
  unfold pubsub_listeners. rewrite list_elem_of_fmap. split.
  - intros ([h [t' a']] & -> & Hin). apply list_elem_of_filter in Hin.
    simpl in *. destruct Hin as [-> Hin]. eauto.
  - intros [h Hin]. exists (h, (t, a)). split; [done|].
    apply list_elem_of_filter. done.
Qed.

(** A closure is registered for one topic only. *)
Lemma wf_one_topic w h h' t t' a :
  wf w → (h, (t, a)) ∈ subscriptions (pubsub w) →
  (h', (t', a)) ∈ subscriptions (pubsub w) → t = t'.
Proof.
  intros (Hsub & _ & _) Hin Hin'.
  apply list_elem_of_lookup in Hin as [i Hi].
  apply list_elem_of_lookup in Hin' as [j Hj].
  assert (((λ s : nat * (string * nat), s.2.2) <$> subscriptions (pubsub w)) !! i
          = Some a) as Hi' by (by rewrite list_lookup_fmap, Hi).
  assert (((λ s : nat * (string * nat), s.2.2) <$> subscriptions (pubsub w)) !! j
          = Some a) as Hj' by (by rewrite list_lookup_fmap, Hj).
  rewrite Hsub in Hi', Hj'.
  apply lookup_seq in Hi' as [-> _]. apply lookup_seq in Hj' as [Hij _].
  simpl in Hij. subst j. congruence.
Qed.

Lemma publish_pubsub t e w : pubsub (publish t e w) = pubsub w.
Proof. apply notify_pubsub. Qed.

Lemma publish_wf t e w : wf w → wf (publish t e w).
Proof. apply notify_wf. Qed.

Lemma publish_settled t e w p r :
  promises w !! p = Some (Resolved r) →
  promises (publish t e w) !! p = Some (Resolved r).
Proof. apply notify_settled. Qed.

Lemma publish_other t' e w p a t :
  wf w → armed p a t w → t' ≠ t → armed p a t (publish t' e w).
Proof.
  intros Hw Ha Hne. apply notify_armed; [done..|].
  intros Hin. apply listeners_elem in Hin as [h' Hin].
  destruct Ha as ([h Hsub] & _ & _).
  apply Hne. eapply wf_one_topic; eauto.
Qed.

Lemma publish_fires t e w p a :
  wf w → armed p a t w →
  promises (publish t e w) !! p
    = Some (Resolved {| result_value := val e; done := false |}).
Proof.
  intros Hw Ha. eapply notify_fires; [done..|].
  apply listeners_elem. by destruct Ha as (? & _ & _).
Qed.

(** *** [next()] and [return()] *)

Lemma init_wf : wf (@init Ev).
Proof.
  split; [done|]. split.
  - intros a a' e e' f f' Ha. simpl in Ha. by rewrite lookup_nil in Ha.
  - intros a e f Ha. simpl in Ha. by rewrite lookup_nil in Ha.
Qed.

Lemma next_wf c w : wf w → wf (next (subscribe c) w).2.
Proof.
  intros (Hsub & Huniq & Hpend). rewrite next_eq. simpl. split; [|split]; simpl.
  - rewrite fmap_app, Hsub, length_app. simpl.
    rewrite Nat.add_1_r, seq_S. done.
  - intros a a' e e' f f' Ha Ha' Hf Hf' Ht.
    apply lookup_app_Some in Ha as [Ha | [Hge Ha]];
      apply lookup_app_Some in Ha' as [Ha' | [Hge' Ha']].
    + eauto.
    + apply list_lookup_singleton_Some in Ha' as [_ <-]. simpl in Hf'.
      injection Hf' as <-. simpl in Ht.
      destruct (Hpend _ _ _ Ha Hf) as [Hp _].
      apply lookup_lt_Some in Hp. lia.
    + apply list_lookup_singleton_Some in Ha as [_ <-]. simpl in Hf.
      injection Hf as <-. simpl in Ht.
      destruct (Hpend _ _ _ Ha' Hf') as [Hp _].
      apply lookup_lt_Some in Hp. lia.
    + apply list_lookup_singleton_Some in Ha as [Ha _].
      apply list_lookup_singleton_Some in Ha' as [Ha' _]. lia.
  - intros a e f Ha Hf.
    apply lookup_app_Some in Ha as [Ha | [Hge Ha]].
    + destruct (Hpend _ _ _ Ha Hf) as [Hp Hv]. split; [|done].
      rewrite lookup_app_l; [done|]. by eapply lookup_lt_Some.
    + apply list_lookup_singleton_Some in Ha as [_ <-]. simpl in Hf.
      injection Hf as <-. simpl. split; [|done].
      rewrite lookup_app_r by lia. by rewrite Nat.sub_diag.
Qed.

Lemma return_wf c w : wf w → wf (return_ (subscribe c) w).2.
Proof.
  intros (Hsub & Huniq & Hpend). rewrite return_eq. simpl.
  split; [done|]. split; [done|]. simpl.
  intros a e f Ha Hf. destruct (Hpend _ _ _ Ha Hf) as [Hp Hv]. split; [|done].
  rewrite lookup_app_l; [done|]. by eapply lookup_lt_Some.
Qed.

(** The pull a [next()] call hands out is waiting on the session's topic. *)
Lemma next_armed c w :
  armed (length (promises w)) (length (envs w)) (topicName (subscribe c))
        (next (subscribe c) w).2.
Proof.
  rewrite next_eq. simpl. split; [|split]; simpl.
  - eexists. apply elem_of_app. right. apply list_elem_of_singleton. done.
  - rewrite lookup_app_r by lia. by rewrite Nat.sub_diag.
  - rewrite lookup_app_r by lia. by rewrite Nat.sub_diag.
Qed.

Lemma next_keeps_armed c w p a t :
  armed p a t w → armed p a t (next (subscribe c) w).2.
Proof.
  intros ([h Hsub] & Henv & Hp). rewrite next_eq. split; [|split]; simpl.
  - exists h. apply elem_of_app. by left.
  - rewrite lookup_app_l; [done|]. by eapply lookup_lt_Some.
  - rewrite lookup_app_l; [done|]. by eapply lookup_lt_Some.
Qed.

Lemma return_keeps_armed c w p a t :
  armed p a t w → armed p a t (return_ (subscribe c) w).2.
Proof.
  intros (Hsub & Henv & Hp). rewrite return_eq. split; [|split]; simpl; try done.
  rewrite lookup_app_l; [done|]. by eapply lookup_lt_Some.
Qed.

(** *** Traces *)

Lemma run_cons o ops w : run (o :: ops) w = run ops (step w o).
Proof. reflexivity. Qed.

Lemma run_app ops ops' w : run (ops ++ ops') w = run ops' (run ops w).
Proof. apply foldl_app. Qed.

Lemma step_wf w o : wf w → wf (step w o).
Proof.
  destruct o as [s c|s c|t e];
    [apply (next_wf c w) | apply (return_wf c w) | apply publish_wf].
Qed.

Lemma run_wf ops w : wf w → wf (run ops w).
Proof.
  revert w. induction ops as [|o ops IH]; intros w Hw; [done|].
  rewrite run_cons. apply IH. by apply step_wf.
Qed.

Lemma reachable_wf w : reachable w → wf w.
Proof. intros [ops ->]. apply run_wf, init_wf. Qed.

Lemma reachable_init : reachable (@init Ev).
Proof. by exists []. Qed.

Lemma reachable_step w o : reachable w → reachable (step w o).
Proof. intros [ops ->]. exists (ops ++ [o]). by rewrite run_app. Qed.

Lemma step_settled w o p r :
  promises w !! p = Some (Resolved r) →
  promises (step w o) !! p = Some (Resolved r).
Proof.
  intros Hp. pose proof (lookup_lt_Some _ _ _ Hp) as Hlt.
  destruct o as [s c|s c|t e]; simpl.
  - rewrite next_eq. simpl. by rewrite lookup_app_l.
  - by rewrite lookup_app_l.
  - by apply publish_settled.
Qed.

Lemma run_settled ops w p r :
  promises w !! p = Some (Resolved r) →
  promises (run ops w) !! p = Some (Resolved r).
Proof.
  revert w. induction ops as [|o ops IH]; intros w Hp; [done|].
  rewrite run_cons. apply IH. by apply step_settled.
Qed.

Lemma outcome_publish_same t e (ops : list (op Ev)) :
  outcome t (OPublish t e :: ops)
    = Resolved {| result_value := val e; done := false |}.
Proof. unfold outcome, first_published. simpl. by rewrite decide_True. Qed.

Lemma outcome_publish_other t t' e (ops : list (op Ev)) :
  t' ≠ t → outcome t (OPublish t' e :: ops) = outcome t ops.
Proof.
  intros Hne. unfold outcome, first_published. simpl. by rewrite decide_False.
Qed.

Lemma outcome_return t s c (ops : list (op Ev)) :
  outcome t (OReturn s c :: ops) = outcome t ops.
Proof. reflexivity. Qed.

(** A waiting pull ends as the first later payload of its topic, and
    keeps waiting when there is none. *)
Lemma armed_outcome ops w p a t :
  wf w → armed p a t w → promises (run ops w) !! p = Some (outcome t ops).
Proof.
  revert w. induction ops as [|o ops IH]; intros w Hw Ha.
  - by destruct Ha as (_ & _ & Hp).
  - rewrite run_cons. destruct o as [s c|s c|t' e].
    + rewrite (IH _ (step_wf _ (ONext s c) Hw) (next_keeps_armed c _ _ _ _ Ha)).
      done.
    + rewrite (IH _ (step_wf _ (OReturn s c) Hw) (return_keeps_armed c _ _ _ _ Ha)).
      done.
    + destruct (decide (t' = t)) as [->|Ht].
      * rewrite outcome_publish_same. apply run_settled.
        by eapply publish_fires.
      * rewrite outcome_publish_other by done.
        apply IH; [by apply step_wf|]. by apply publish_other.
Qed.

Lemma pull_outcome c ops w :
  wf w →
  promises (run ops (next (subscribe c) w).2) !! (next (subscribe c) w).1
    = Some (outcome (topicName (subscribe c)) ops).
Proof.
  intros Hw. eapply armed_outcome; [by apply next_wf|].
  rewrite (next_eq c w) at 1. simpl. apply next_armed.
Qed.


(** *** Reading a trace *)


Lemma omap_all_None {A B} (f : A → option B) (l : list A) :
  (∀ x, x ∈ l → f x = None) → omap f l = [].
Proof.
  induction l as [|x l IH]; intros Hf; [done|]. csimpl.
  rewrite (Hf x) by apply list_elem_of_here.
  apply IH. intros y Hy. apply Hf. by apply list_elem_of_further.
Qed.

Lemma omap_agree {A B} (f g : A → option B) (l : list A) :
  (∀ x, x ∈ l → f x = g x) → omap f l = omap g l.
Proof.
  induction l as [|x l IH]; intros Hf; [done|]. csimpl.
  rewrite (Hf x) by apply list_elem_of_here.
  rewrite IH; [done|]. intros y Hy. apply Hf. by apply list_elem_of_further.
Qed.

Lemma published_app t (ops ops' : list (op Ev)) :
  published t (ops ++ ops') = published t ops ++ published t ops'.
Proof.
  induction ops as [|[s c|s c|t' e] ops IH]; simpl; try done.
  case_decide; [|done]. by rewrite IH.
Qed.

Lemma outcome_app_quiet t (ops ops' : list (op Ev)) :
  published t ops = [] → outcome t (ops ++ ops') = outcome t ops'.
Proof.
  intros Hq. unfold outcome, first_published. by rewrite published_app, Hq.
Qed.





(** *** The registry and the waiting pulls *)

Lemma listeners_next t c w :
  pubsub_listeners t (pubsub (next (subscribe c) w).2) =
    pubsub_listeners t (pubsub w)
      ++ (if decide (topicName (subscribe c) = t) then [length (envs w)] else []).
Proof.
  rewrite next_eq. unfold pubsub_listeners. simpl.
  rewrite filter_app, fmap_app. f_equal.
  rewrite filter_cons. simpl. by case_decide.
Qed.

Lemma listeners_return t c w :
  pubsub_listeners t (pubsub (return_ (subscribe c) w).2)
    = pubsub_listeners t (pubsub w).
Proof. reflexivity. Qed.

Lemma listeners_publish t t' e w :
  pubsub_listeners t (pubsub (publish t' e w)) = pubsub_listeners t (pubsub w).
Proof. by rewrite publish_pubsub. Qed.

Lemma listeners_pulls t s c k w :
  pubsub_listeners t (pubsub (run (replicate k (ONext s c)) w)) =
    pubsub_listeners t (pubsub w)
      ++ (if decide (topicName (subscribe c) = t) then seq (length (envs w)) k else []).
Proof.
  revert w. induction k as [|k IH]; intros w.
  - simpl. case_decide; by rewrite app_nil_r.
  - rewrite replicate_S, run_cons, IH.
    change (step w (ONext s c)) with (next (subscribe c) w).2.
    rewrite listeners_next. rewrite (next_eq c w). simpl.
    rewrite length_app. simpl. rewrite Nat.add_1_r.
    destruct (decide _); rewrite <- app_assoc; reflexivity.
Qed.

Lemma wf_listener_lt w t a :
  wf w → a ∈ pubsub_listeners t (pubsub w) → a < length (envs w).
Proof.
  intros (Hsub & _ & _) Hin. apply listeners_elem in Hin as [h Hin].
  assert (a ∈ ((λ s : nat * (string * nat), s.2.2) <$> subscriptions (pubsub w)))
    as Ha by (apply list_elem_of_fmap; by exists (h, (t, a))).
  rewrite Hsub in Ha. apply elem_of_seq in Ha. lia.
Qed.

Lemma notify_resolveNext ls e w a env f :
  envs (notify ls e w) !! a = Some env → resolveNext env = val f →
  (a ∉ ls) ∧ envs w !! a = Some env.
Proof.
  revert w. induction ls as [|a' ls IH]; intros w Ha Hf.
  - split; [apply not_elem_of_nil | done].
  - rewrite notify_cons in Ha. destruct (IH _ Ha Hf) as [Hnin Ha'].
    destruct (listener_resolveNext _ _ _ _ _ _ Ha' Hf) as [Hne Ha''].
    split; [|done]. apply not_elem_of_cons. done.
Qed.

(** After a [publish] no pull of the topic is left waiting. *)
Lemma outstanding_publish t e w : outstanding t (publish t e w) = [].
Proof.
  unfold outstanding. rewrite publish_pubsub. apply omap_all_None.
  intros a Ha. unfold get_resolveNext.
  destruct (envs (publish t e w) !! a) as [env|] eqn:Henv; [|done].
  destruct (resolveNext env) as [| |f] eqn:Hf; try done.
  destruct (notify_resolveNext _ _ _ _ _ _ Henv Hf) as [Hnin _]. done.
Qed.

(** Every [next()] adds a waiting pull to the topic of its session. *)
Lemma outstanding_next c w :
  wf w →
  outstanding (topicName (subscribe c)) (next (subscribe c) w).2
    = outstanding (topicName (subscribe c)) w ++ [length (promises w)].
Proof.
  intros Hw. unfold outstanding. rewrite listeners_next.
  rewrite decide_True by done. rewrite omap_app. f_equal.
  - apply omap_agree. intros a Ha.
    pose proof (wf_listener_lt _ _ _ Hw Ha) as Hlt.
    unfold get_resolveNext. rewrite next_eq. simpl.
    by rewrite lookup_app_l.
  - csimpl. unfold get_resolveNext. rewrite next_eq. simpl.
    rewrite lookup_app_r by lia. by rewrite Nat.sub_diag.
Qed.

(** *** What the listeners of a topic are handed *)

Lemma listener_sets_value a e w :
  a < length (envs w) → get_value a (listener a e w) = val e.
Proof.
  intros Hlt. unfold get_value.
  destruct (lookup_lt_is_Some_2 _ _ Hlt) as [env Ha].
  listener_split a e w; simpl; try congruence;
    by rewrite list_lookup_insert_eq.
Qed.

Lemma listener_keeps_value a a' e w :
  get_value a w = val e → get_value a (listener a' e w) = val e.
Proof.
  intros Hv. destruct (decide (a = a')) as [<-|Hne].
  - apply listener_sets_value. unfold get_value in Hv.
    destruct (envs w !! a) eqn:Ha; [|done]. by eapply lookup_lt_Some.
  - unfold get_value. by rewrite listener_envs_other.
Qed.

Lemma notify_keeps_value ls a e w :
  get_value a w = val e → get_value a (notify ls e w) = val e.
Proof.
  revert w. induction ls as [|a' ls IH]; intros w Hv; [done|].
  rewrite notify_cons. apply IH. by apply listener_keeps_value.
Qed.

Lemma notify_sets_value ls a e w :
  a ∈ ls → a < length (envs w) → get_value a (notify ls e w) = val e.
Proof.
  revert w. induction ls as [|a' ls IH]; intros w Hin Hlt.
  - by apply elem_of_nil in Hin.
  - rewrite notify_cons. destruct (decide (a = a')) as [<-|Hne].
    + apply notify_keeps_value. by apply listener_sets_value.
    + apply elem_of_cons in Hin as [->|Hin]; [done|].
      apply IH; [done|]. by rewrite listener_envs_length.
Qed.

Lemma next_pending c w :
  promises (next (subscribe c) w).2 !! (next (subscribe c) w).1 = Some Pending.
Proof.
  rewrite next_eq. simpl. rewrite lookup_app_r by lia. by rewrite Nat.sub_diag.
Qed.

(** A promise among the waiting pulls of a topic is waiting through one
    of the topic's listeners. *)
Lemma outstanding_armed w t p :
  wf w → p ∈ outstanding t w → ∃ a, armed p a t w.
Proof.
  intros Hw Hp. unfold outstanding in Hp.
  apply list_elem_of_omap in Hp as (a & Ha & Hres).
  unfold get_resolveNext in Hres.
  destruct (envs w !! a) as [[rn v]|] eqn:Henv; [|done]. simpl in Hres.
  destruct rn as [| |[q]]; simpl in Hres; try done.
  injection Hres as ->.
  pose proof Hw as (_ & _ & Hpend).
  destruct (Hpend a _ (ResolveOf p) Henv eq_refl) as [Hpending Hv].
  simpl in Hpending, Hv. subst v.
  exists a. split; [by apply listeners_elem|]. split; done.
Qed.

Lemma outstanding_fires w t e p :
  wf w → p ∈ outstanding t w →
  promises (publish t e w) !! p
    = Some (Resolved {| result_value := val e; done := false |}).
Proof.
  intros Hw Hp. destruct (outstanding_armed w t p Hw Hp) as [a Ha].
  by eapply publish_fires.
Qed.

Lemma outstanding_waits w t t' e p :
  wf w → p ∈ outstanding t w → t' ≠ t →
  promises (publish t' e w) !! p = Some Pending.
Proof.
  intros Hw Hp Hne. destruct (outstanding_armed w t p Hw Hp) as [a Ha].
  by destruct (publish_other t' e w p a t Hw Ha Hne) as (_ & _ & Hpend).
Qed.

(** A publish that finds no listener with a pull to answer leaves the
    promises alone and only writes the payload into the [value] of the
    listeners it calls. *)
Lemma notify_idle ls e w :
  (∀ a f, a ∈ ls → get_resolveNext a w ≠ val f) →
  promises (notify ls e w) = promises w.
Proof.
  revert w. induction ls as [|a ls IH]; intros w Hidle; [done|].
  rewrite notify_cons, IH.
  - listener_split a e w; try done.
    exfalso. eapply (Hidle a); [apply list_elem_of_here|].
    unfold get_resolveNext.
    match goal with Ha : envs w !! a = Some _ |- _ => rewrite Ha end. eassumption.
  - intros a' f Ha' Hval. unfold get_resolveNext in Hval.
    destruct (envs (listener a e w) !! a') as [env'|] eqn:Henv'; [|done].
    destruct (listener_resolveNext _ _ _ _ _ _ Henv' Hval) as [_ Hold].
    apply (Hidle a' f); [by apply list_elem_of_further|].
    unfold get_resolveNext. by rewrite Hold.
Qed.

Lemma notify_idle_envs ls e w a env :
  (∀ a' f, a' ∈ ls → get_resolveNext a' w ≠ val f) →
  envs w !! a = Some env →
  envs (notify ls e w) !! a
    = Some (if decide (a ∈ ls)
            then {| resolveNext := resolveNext env; value := val e |}
            else env).
Proof.
  revert w env. induction ls as [|a' ls IH]; intros w env Hidle Ha.
  - rewrite decide_False by apply not_elem_of_nil. done.
  - rewrite notify_cons.
    assert (∀ a'' f, a'' ∈ ls → get_resolveNext a'' (listener a' e w) ≠ val f)
      as Hidle'.
    { intros a'' f Ha'' Hval. unfold get_resolveNext in Hval.
      destruct (envs (listener a' e w) !! a'') as [env''|] eqn:Henv''; [|done].
      destruct (listener_resolveNext _ _ _ _ _ _ Henv'' Hval) as [_ Hold].
      apply (Hidle a'' f); [by apply list_elem_of_further|].
      unfold get_resolveNext. by rewrite Hold. }
    destruct (decide (a = a')) as [<-|Hne].
    + assert (envs (listener a e w) !! a
              = Some {| resolveNext := resolveNext env; value := val e |}) as Ha'.
      { rewrite (listener_idle a e w env Ha); simpl.
        - apply list_lookup_insert_eq. by eapply lookup_lt_Some.
        - intros f Hf. apply (Hidle a f); [apply list_elem_of_here|].
          unfold get_resolveNext. by rewrite Ha. }
      rewrite (IH _ _ Hidle' Ha'). simpl.
      rewrite (decide_True (P := a ∈ a :: ls)) by apply list_elem_of_here.
      by destruct (decide (a ∈ ls)).
    + rewrite (IH _ env Hidle') by (by rewrite listener_envs_other).
      destruct (decide (a ∈ ls)) as [Hin|Hnin].
      * by rewrite decide_True by (by apply list_elem_of_further).
      * rewrite decide_False; [done|].
        intros [->|Hin]%elem_of_cons; done.
Qed.

End IteratorFacts.

(** ** The resolvers *)

Lemma handle_step st r : ∃ o, bus (handle st r) = step (bus st) o.
Proof.
  destruct r as [content sender channel now | c | c].
  - eexists (OPublish _ _). reflexivity.
  - by exists (ONext 0 c).
  - by exists (OReturn 0 c).
Qed.

Lemma live_reachable st : live st → reachable (bus st).
Proof.
  intros [rs ->]. unfold serve.
  induction rs as [|r rs IH] using rev_ind.
  - apply reachable_init.
  - rewrite foldl_app. simpl.
    destruct (handle_step (foldl handle boot rs) r) as [o ->].
    by apply reachable_step.
Qed.

Lemma live_boot : live boot.
Proof. by exists []. Qed.

Lemma live_handle st r : live st → live (handle st r).
Proof.
  intros [rs ->]. exists (rs ++ [r]). unfold serve. by rewrite foldl_app.
Qed.

Lemma topic_inj c c' :
  topicName (subscribe c) = topicName (subscribe c') → c = c'.
Proof. simpl. intros Heq. by simplify_eq. Qed.

Lemma find_absent_id (l : list User) (s : string) :
  (∀ u, u ∈ l → user_id u ≠ s) →
  find (λ user, bool_decide (user_id user = s)) l = None.
Proof.
  induction l as [|u l IH]; intros Habsent; [done|]. simpl.
  rewrite bool_decide_eq_false_2 by (apply Habsent; apply list_elem_of_here).
  apply IH. intros u' Hu'. apply Habsent. by apply list_elem_of_further.
Qed.

Lemma handle_listeners t st r :
  pubsub_listeners t (pubsub (bus (handle st r))) =
    pubsub_listeners t (pubsub (bus st))
      ++ match r with
         | Next c =>
             if decide (topicName (subscribe c) = t)
             then [length (envs (bus st))] else []
         | _ => []
         end.
Proof.
  destruct r as [content sender channel now | c | c].
  - rewrite app_nil_r. apply (listeners_publish t _ _ (bus st)).
  - apply (listeners_next t c (bus st)).
  - by rewrite app_nil_r.
Qed.

Lemma handle_subscriptions st r :
  subscriptions (pubsub (bus st)) `prefix_of` subscriptions (pubsub (bus (handle st r))).
Proof.
  destruct r as [content sender channel now | c | c].
  - change (bus (handle st (SendMessage content sender channel now)))
      with (publish ("MESSAGE_ADDED_" +:+ channel)
              {| messageAdded := (sendMessage content sender channel now st).1 |}
              (bus st)).
    by rewrite publish_pubsub.
  - change (bus (handle st (Next c))) with (next (subscribe c) (bus st)).2.
    rewrite next_eq. simpl. by apply prefix_app_r.
  - done.
Qed.

(** * The bus and the subscription iterator *)




(** C4: a pull that is waiting when a payload is published to its topic is
    settled with that payload, not with end-of-sequence; calls in between
    that publish nothing to the topic, and whatever follows, do not change
    that. *)
Theorem waiting_pull_receives_event
    {Ev} `{Truthy Ev} (w : World Ev) (c : string) (e : Ev) (before after : list (op Ev)) :
  reachable w →
  published (topicName (subscribe c)) before = [] →
  promises (next (subscribe c) w).2 !! (next (subscribe c) w).1 = Some Pending
  ∧ promises
      (run (before ++ OPublish (topicName (subscribe c)) e :: after)
           (next (subscribe c) w).2)
      !! (next (subscribe c) w).1
    = Some (Resolved {| result_value := val e; done := false |}).
Proof.
  intros Hw%reachable_wf Hbefore. split; [apply next_pending|].
  rewrite pull_outcome by done. f_equal.
  rewrite outcome_app_quiet by done. apply outcome_publish_same.
Qed.

Lemma waiting_pull_receives_event_witness :
  reachable (@init string)
  ∧ published (topicName (subscribe "1")) [ONext 1 "2"; OPublish "MESSAGE_ADDED_2" "x"] = []
  ∧ promises
      (run ([ONext 1 "2"; OPublish "MESSAGE_ADDED_2" "x"]
              ++ OPublish (topicName (subscribe "1")) "hi" :: [])
           (next (subscribe "1") (@init string)).2)
      !! (next (subscribe "1") (@init string)).1
    = Some (Resolved {| result_value := val "hi"; done := false |}).
Proof.
  split; [by exists [] |]. split; [reflexivity|].
  exact (proj2 (waiting_pull_receives_event (@init string) "1" "hi"
                  [ONext 1 "2"; OPublish "MESSAGE_ADDED_2" "x"] []
                  reachable_init eq_refl)).
Defined.

(** C5, at the failing input: a message is sent to a channel while no pull
    of that channel is waiting, then a session of the channel calls
    [next()].  The pull is not answered with the message: its promise is
    still pending when [next()] returns and carries no event, whatever the
    state of the server and whatever the message.  The test [if (value)]
    of [next()] reads a variable declared a few lines above in the same
    call, so the branch that would hand over a buffered event never runs. *)
Theorem message_sent_before_pull_is_not_returned
    (text sender channel now : string) (st : Server) :
  let sent := (sendMessage text sender channel now st).2 in
  let pull := next (subscribe channel) (bus sent) in
  promises pull.2 !! pull.1 = Some Pending
  ∧ delivered pull.2 pull.1 = None
  ∧ get_value (length (envs (bus sent))) pull.2 = undefined.
Proof.
  intros sent pull. unfold pull.
  split; [|split].
  - apply next_pending.
  - unfold delivered. by rewrite next_pending.
  - rewrite next_eq. unfold get_value. simpl.
    rewrite lookup_app_r by lia. by rewrite Nat.sub_diag.
Qed.

(** C2, as stated, fails: the second [next()] of a session registers a
    second listener, so the session does not keep exactly one. *)
Lemma second_pull_registers_second_listener :
  listener_count "MESSAGE_ADDED_1" (run [ONext 0 "1"; ONext 0 "1"] (@init string)) ≠ 1.
Proof. vm_compute. discriminate. Qed.

(** C2, amended: opening a session registers nothing (it only builds the
    iterator); every [next()] on the session registers exactly one new
    listener, the closure created by that very call, on the session's
    topic and on no other; [return()] leaves the registry as it is.  After
    k pulls and a [return()] the k listeners are all still registered. *)
Theorem every_pull_registers_its_own_listener
    {Ev} `{Truthy Ev} (w : World Ev) (s : nat) (c : string) (k : nat) :
  pubsub_listeners (topicName (subscribe c)) (pubsub (next (subscribe c) w).2)
    = pubsub_listeners (topicName (subscribe c)) (pubsub w) ++ [length (envs w)]
  ∧ (∀ t, t ≠ topicName (subscribe c) →
       pubsub_listeners t (pubsub (next (subscribe c) w).2)
         = pubsub_listeners t (pubsub w))
  ∧ pubsub (return_ (subscribe c) w).2 = pubsub w
  ∧ pubsub_listeners (topicName (subscribe c))
      (pubsub (run (replicate k (ONext s c) ++ [OReturn s c]) w))
    = pubsub_listeners (topicName (subscribe c)) (pubsub w) ++ seq (length (envs w)) k.
Proof.
  split; [|split; [|split]].
  - rewrite listeners_next. by rewrite decide_True.
  - intros t Ht. rewrite listeners_next. rewrite decide_False by done.
    apply app_nil_r.
  - reflexivity.
  - rewrite run_app.
    change (run [OReturn s c] ?w') with (return_ (subscribe c) w').2.
    rewrite listeners_return, listeners_pulls. by rewrite decide_True.
Qed.

Lemma every_pull_registers_its_own_listener_witness :
  "MESSAGE_ADDED_2" ≠ topicName (subscribe "1")
  ∧ pubsub_listeners "MESSAGE_ADDED_2"
      (pubsub (next (subscribe "1") (@init string)).2)
    = pubsub_listeners "MESSAGE_ADDED_2" (pubsub (@init string)).
Proof.
  split; [discriminate|].
  apply (proj1 (proj2 (every_pull_registers_its_own_listener
                         (@init string) 0 "1" 2))).
  discriminate.
Defined.

(** C3, as stated, fails: after [return()] the pull that was waiting is
    still pending; it has not been settled with end-of-sequence. *)
Lemma close_leaves_pull_waiting :
  promises (return_ (subscribe "1") (next (subscribe "1") (@init string)).2).2
    !! (next (subscribe "1") (@init string)).1
  ≠ Some (Resolved end_of_sequence).
Proof. vm_compute. discriminate. Qed.

(** C3, amended: [return()] answers end-of-sequence to its own caller and
    changes nothing else.  The registry and the listeners' variables are
    untouched and a pull that was waiting keeps waiting; the next payload
    published to the topic settles it with that payload.  Calling
    [return()] again answers end-of-sequence again and again changes
    nothing else. *)
Theorem return_answers_only_its_caller
    {Ev} `{Truthy Ev} (w : World Ev) (c : string) (e : Ev) :
  reachable w →
  let pull := next (subscribe c) w in
  let closed := return_ (subscribe c) pull.2 in
  let again := return_ (subscribe c) closed.2 in
  promises closed.2 !! closed.1 = Some (Resolved end_of_sequence)
  ∧ promises closed.2 !! pull.1 = Some Pending
  ∧ pubsub closed.2 = pubsub pull.2
  ∧ envs closed.2 = envs pull.2
  ∧ (∀ q, q < length (promises pull.2) →
       promises closed.2 !! q = promises pull.2 !! q)
  ∧ promises (publish (topicName (subscribe c)) e closed.2) !! pull.1
      = Some (Resolved {| result_value := val e; done := false |})
  ∧ promises again.2 !! again.1 = Some (Resolved end_of_sequence)
  ∧ pubsub again.2 = pubsub closed.2
  ∧ envs again.2 = envs closed.2
  ∧ (∀ q, q < length (promises closed.2) →
       promises again.2 !! q = promises closed.2 !! q).
Proof.
  intros Hw%reachable_wf pull closed again.
  repeat split.
  - unfold closed. rewrite return_eq. simpl.
    rewrite lookup_app_r by lia. by rewrite Nat.sub_diag.
  - apply (pull_outcome c [OReturn 0 c] w Hw).
  - intros q Hq. unfold closed. rewrite return_eq. simpl.
    by rewrite lookup_app_l.
  - pose proof (pull_outcome c [OReturn 0 c; OPublish (topicName (subscribe c)) e] w Hw)
      as Hp.
    etransitivity; [exact Hp|]. f_equal.
    rewrite outcome_return. apply outcome_publish_same.
  - unfold again. rewrite return_eq. simpl.
    rewrite lookup_app_r by lia. by rewrite Nat.sub_diag.
  - intros q Hq. unfold again. rewrite return_eq. simpl.
    by rewrite lookup_app_l.
Qed.

Lemma return_answers_only_its_caller_witness :
  reachable (@init string)
  ∧ promises
      (return_ (subscribe "1") (next (subscribe "1") (@init string)).2).2
      !! (next (subscribe "1") (@init string)).1
    = Some Pending.
Proof.
  split; [by exists [] |].
  exact (proj1 (proj2 (return_answers_only_its_caller (@init string) "1" "hi"
                         reachable_init))).
Defined.

(** C6, as stated, fails: nothing limits a session to one waiting pull.
    Two [next()] calls in a row leave two pulls waiting on the topic. *)
Lemma two_pulls_wait_together :
  ¬ (length (outstanding "MESSAGE_ADDED_1"
               (run [ONext 0 "1"; ONext 0 "1"] (@init string))) ≤ 1).
Proof. vm_compute. lia. Qed.

(** C6, amended: for the listener of every [next()] call, at every moment
    between two calls, it is never the case that its [value] holds an event
    while its pull is still waiting: a listener that still has its
    [resolveNext] has an untouched [value] and a pending promise.  A
    payload that arrives settles every pull waiting on its topic at once,
    each promise with that payload, and leaves none waiting behind it.
    The number of waiting pulls is not limited to one: each [next()] adds
    one to those of its topic. *)
Theorem waiting_listener_holds_no_event {Ev} `{Truthy Ev} (w : World Ev) :
  reachable w →
  (∀ a env f,
     envs w !! a = Some env → resolveNext env = val f →
     value env = undefined ∧ promises w !! target f = Some Pending)
  ∧ (∀ t e p,
       p ∈ outstanding t w →
       promises (publish t e w) !! p
         = Some (Resolved {| result_value := val e; done := false |}))
  ∧ (∀ t e, outstanding t (publish t e w) = [])
  ∧ (∀ c,
       outstanding (topicName (subscribe c)) (next (subscribe c) w).2
         = outstanding (topicName (subscribe c)) w ++ [length (promises w)]).
Proof.
  intros Hw%reachable_wf. split; [|split; [|split]].
  - intros a env f Ha Hf. destruct Hw as (_ & _ & Hpend).
    destruct (Hpend _ _ _ Ha Hf). done.
  - intros t e p Hp. by apply outstanding_fires.
  - intros t e. apply outstanding_publish.
  - intros c. by apply outstanding_next.
Qed.

Lemma waiting_listener_holds_no_event_witness :
  reachable (next (subscribe "1") (@init string)).2
  ∧ 0 ∈ outstanding "MESSAGE_ADDED_1" (next (subscribe "1") (@init string)).2
  ∧ promises
      (publish "MESSAGE_ADDED_1" "hi" (next (subscribe "1") (@init string)).2) !! 0
    = Some (Resolved {| result_value := val "hi"; done := false |}).
Proof.
  split; [by exists [ONext 0 "1"] |]. split; [apply list_elem_of_here|].
  exact (proj1 (proj2 (waiting_listener_holds_no_event
                         (next (subscribe "1") (@init string)).2
                         (reachable_step _ (ONext 0 "1") reachable_init)))
               "MESSAGE_ADDED_1" "hi" 0 (list_elem_of_here 0 [])).
Defined.

(** * The message store *)

(** C7, as stated, fails: a message does not reach a subscriber of its
    channel that is between two pulls.  The session of channel 1 pulls, is
    sent a, b and c, and pulls again: b is in the log of the channel and
    no promise carries it. *)
Lemma message_between_pulls_reaches_no_subscriber :
  let st := serve [Next "1"; SendMessage "a" "1" "1" "t1"; SendMessage "b" "1" "1" "t2";
                   SendMessage "c" "1" "1" "t3"; Next "1"] boot in
  let b := {| id := "2"; content := "b"; createdAt := "t2";
              senderId := "1"; channelId := "1" |} in
  b ∈ Query_messages "1" st
  ∧ ∀ p, delivered (bus st) p ≠ Some {| messageAdded := b |}.
Proof.
  split.
  - vm_compute. apply list_elem_of_further, list_elem_of_here.
  - intros [|[|p]]; vm_compute; discriminate.
Qed.

(** C7, amended: [sendMessage] and [messageAdded] build the topic the same
    way, the fixed prefix followed by the channel id, and different
    channels never share a topic.  So a message sent to a channel settles,
    with that message, every pull that is waiting on that channel, and
    leaves the pulls that wait on any other channel waiting. *)
Theorem mutation_and_subscription_agree_on_topic
    (st : Server) (text sender channel now waiting : string) (p : nat) :
  live st →
  p ∈ outstanding (topicName (subscribe waiting)) (bus st) →
  let sent := sendMessage text sender channel now st in
  topicName (subscribe channel) = "MESSAGE_ADDED_" +:+ channel
  ∧ bus sent.2
      = publish (topicName (subscribe channel)) {| messageAdded := sent.1 |} (bus st)
  ∧ (topicName (subscribe channel) = topicName (subscribe waiting)
       ↔ channel = waiting)
  ∧ promises (bus sent.2) !! p
      = Some (if decide (channel = waiting)
              then Resolved {| result_value := val {| messageAdded := sent.1 |};
                               done := false |}
              else Pending).
Proof.
  intros Hw%live_reachable%reachable_wf Hp sent.
  split; [reflexivity|]. split; [reflexivity|]. split.
  - split; [apply topic_inj | by intros ->].
  - change (bus sent.2)
      with (publish (topicName (subscribe channel)) {| messageAdded := sent.1 |}
              (bus st)).
    case_decide as Hc.
    + subst waiting. by apply outstanding_fires.
    + eapply outstanding_waits; [done..|].
      intros Ht. apply Hc. by apply topic_inj.
Qed.

Lemma mutation_and_subscription_agree_on_topic_witness :
  live (handle (handle boot (Next "1")) (Next "2"))
  ∧ 0 ∈ outstanding (topicName (subscribe "1"))
          (bus (handle (handle boot (Next "1")) (Next "2")))
  ∧ promises
      (bus (sendMessage "hi" "1" "1" "2024-05-01T10:00:00.000Z"
              (handle (handle boot (Next "1")) (Next "2"))).2) !! 0
    = Some (Resolved
              {| result_value :=
                   val {| messageAdded :=
                            (sendMessage "hi" "1" "1" "2024-05-01T10:00:00.000Z"
                               (handle (handle boot (Next "1")) (Next "2"))).1 |};
                 done := false |}).
Proof.
  split; [by exists [Next "1"; Next "2"] |].
  split; [apply list_elem_of_here|].
  exact (proj2 (proj2 (proj2 (mutation_and_subscription_agree_on_topic
                                (handle (handle boot (Next "1")) (Next "2"))
                                "hi" "1" "1" "2024-05-01T10:00:00.000Z" "1" 0
                                (live_handle _ _ (live_handle _ _ live_boot))
                                (list_elem_of_here 0 []))))).
Defined.

(** C8: [sendMessage] builds the record, appends it to [messages], and only
    then publishes.  Whatever the bus does when it is called (its
    listeners may read the store), it is called on the store that already
    ends with the new record, with the payload that carries that record,
    and the record is what the mutation returns.  On the bus of the
    module, every listener of the channel's topic is handed that
    payload. *)
Theorem sendMessage_stores_then_publishes
    (text sender channel now : string) (st : Server) :
  let m := {| id := pretty (length (messages st) + 1);
              content := text;
              createdAt := now;
              senderId := sender;
              channelId := channel |} in
  let stored := messages_push m st in
  let sent := sendMessage text sender channel now st in
  (∀ emit : string → Payload → Server → Server,
     sendMessage_via emit text sender channel now st
       = (m, emit ("MESSAGE_ADDED_" +:+ channel) {| messageAdded := m |} stored))
  ∧ messages stored = messages st ++ [m]
  ∧ bus stored = bus st
  ∧ sent.2 = pubsub_publish ("MESSAGE_ADDED_" +:+ channel) {| messageAdded := m |} stored
  ∧ sent.1 = m
  ∧ messages sent.2 = messages st ++ [m]
  ∧ (∀ a, a ∈ pubsub_listeners ("MESSAGE_ADDED_" +:+ channel) (pubsub (bus st)) →
          a < length (envs (bus st)) →
          get_value a (bus sent.2) = val {| messageAdded := sent.1 |}).
Proof.
  intros m stored sent. repeat split.
  intros a Ha Hlt. by apply notify_sets_value.
Qed.

Lemma sendMessage_stores_then_publishes_witness :
  0 ∈ pubsub_listeners ("MESSAGE_ADDED_" +:+ "1")
        (pubsub (bus (handle boot (Next "1"))))
  ∧ 0 < length (envs (bus (handle boot (Next "1"))))
  ∧ get_value 0
      (bus (sendMessage "hi" "2" "1" "2024-05-01T10:00:00.000Z"
              (handle boot (Next "1"))).2)
    = val {| messageAdded :=
               (sendMessage "hi" "2" "1" "2024-05-01T10:00:00.000Z"
                  (handle boot (Next "1"))).1 |}.
Proof.
  split; [apply list_elem_of_here|]. split; [apply Nat.lt_0_1|].
  apply (proj2 (proj2 (proj2 (proj2 (proj2 (proj2
           (sendMessage_stores_then_publishes
              "hi" "2" "1" "2024-05-01T10:00:00.000Z" (handle boot (Next "1"))))))))).
  - apply list_elem_of_here.
  - apply Nat.lt_0_1.
Defined.

(** C9: a [next()] call registers one more listener for the topic of its
    session and keeps no handle to it; neither [sendMessage] nor
    [return()] removes one.  Over any sequence of requests the registry
    only grows at its end, and a topic has as many more listeners as
    [next()] was called on its sessions. *)
Theorem listeners_only_accumulate (rs : list request) (st : Server) (t : string) :
  listener_count t (bus (serve rs st)) = listener_count t (bus st) + next_calls t rs
  ∧ subscriptions (pubsub (bus st))
      `prefix_of` subscriptions (pubsub (bus (serve rs st))).
Proof.
  revert st. induction rs as [|r rs IH]; intros st.
  - change (serve [] st) with st. split; [symmetry; apply Nat.add_0_r | done].
  - change (serve (r :: rs) st) with (serve rs (handle st r)).
    destruct (IH (handle st r)) as [Hcount Hpre]. split.
    + rewrite Hcount. unfold listener_count. rewrite handle_listeners, length_app.
      destruct r as [text sender channel now | c | c].
      * change (next_calls t (SendMessage text sender channel now :: rs))
          with (next_calls t rs). simpl. lia.
      * change (next_calls t (Next c :: rs))
          with (if decide (topicName (subscribe c) = t)
                then S (next_calls t rs) else next_calls t rs).
        case_decide; simpl; lia.
      * change (next_calls t (Return c :: rs)) with (next_calls t rs).
        simpl. lia.
    + etransitivity; [apply handle_subscriptions | exact Hpre].
Qed.

(** C10: [sendMessage] checks neither id.  Whatever the content, sender
    and channel, it appends a message that carries exactly the ids it was
    given; when the sender id belongs to no user, [Message.sender] finds
    no user for that message. *)
Theorem sendMessage_accepts_any_ids
    (text sender channel now : string) (st : Server) :
  let sent := sendMessage text sender channel now st in
  messages sent.2 = messages st ++ [sent.1]
  ∧ content sent.1 = text
  ∧ senderId sent.1 = sender
  ∧ channelId sent.1 = channel
  ∧ ((∀ u, u ∈ users → user_id u ≠ sender) → Message_sender sent.1 = None).
Proof.
  intros sent. repeat split.
  intros Habsent. by apply find_absent_id.
Qed.

Lemma sendMessage_accepts_any_ids_witness :
  (∀ u, u ∈ users → user_id u ≠ "42")
  ∧ Message_sender (sendMessage "hi" "42" "7" "2024-05-01T10:00:00.000Z" boot).1 = None.
Proof.
  split.
  - intros u Hu. unfold users in Hu.
    apply elem_of_cons in Hu as [->|Hu]; [discriminate|].
    apply list_elem_of_singleton in Hu as ->. discriminate.
  - apply (sendMessage_accepts_any_ids "hi" "42" "7" "2024-05-01T10:00:00.000Z" boot).
    intros u Hu. unfold users in Hu.
    apply elem_of_cons in Hu as [->|Hu]; [discriminate|].
    apply list_elem_of_singleton in Hu as ->. discriminate.
Defined.

(** * Queries over the stores *)

Lemma find_by_key {A} (key : A → string) (l : list A) (i : string) (x : A) :
  NoDup (key <$> l) →
  find (λ y, bool_decide (key y = i)) l = Some x ↔ x ∈ l ∧ key x = i.
Proof.
  induction l as [|y l IH]; intros Hnd.
  - simpl. split; [done|]. intros [Hin _]. by apply elem_of_nil in Hin.
  - rewrite fmap_cons in Hnd. apply NoDup_cons in Hnd as [Hy Hnd]. simpl.
    destruct (bool_decide (key y = i)) eqn:Hk.
    + apply bool_decide_eq_true in Hk. split.
      * intros [= <-]. split; [apply list_elem_of_here | done].
      * intros [Hin Hx]. apply elem_of_cons in Hin as [->|Hin]; [done|].
        exfalso. apply Hy. rewrite Hk, <- Hx. by apply list_elem_of_fmap_2.
    + apply bool_decide_eq_false in Hk. rewrite (IH Hnd). split.
      * intros [Hin Hx]. split; [by apply list_elem_of_further | done].
      * intros [Hin Hx]. apply elem_of_cons in Hin as [->|Hin]; [done|]. done.
Qed.

Lemma users_ids_distinct : NoDup (user_id <$> users).
Proof.
  unfold users. simpl. apply NoDup_cons. split; [|apply NoDup_singleton].
  intros Hin%list_elem_of_singleton. discriminate.
Qed.

Lemma channels_ids_distinct : NoDup (channel_id <$> channels).
Proof.
  unfold channels. simpl. apply NoDup_cons. split; [|apply NoDup_singleton].
  intros Hin%list_elem_of_singleton. discriminate.
Qed.

(** X1: [Query.user] answers a user exactly when the store holds one with
    the asked id, and then it is that user; for an id no user has it
    answers nothing. *)
Theorem Query_user_finds_the_user_of_an_id (i : string) (u : User) :
  (Query_user i = Some u ↔ u ∈ Query_users ∧ user_id u = i)
  ∧ (Query_user i = None ↔ ∀ v, v ∈ Query_users → user_id v ≠ i).
Proof.
  split; [apply find_by_key, users_ids_distinct|]. split.
  - intros Hnone v Hv Hid.
    assert (Query_user i = Some v) as Hsome
      by (apply find_by_key; [apply users_ids_distinct | done]).
    congruence.
  - apply find_absent_id.
Qed.

(** X2: [Query.channel] answers a channel exactly when the store holds one
    with the asked id, and then it is that channel. *)
Theorem Query_channel_finds_the_channel_of_an_id (i : string) (ch : Channel) :
  Query_channel i = Some ch ↔ ch ∈ Query_channels ∧ channel_id ch = i.
Proof. apply find_by_key, channels_ids_distinct. Qed.

(** * The message log *)

Lemma handle_messages st r :
  messages (handle st r) =
    messages st
      ++ match r with
         | SendMessage text sender channel now =>
             [(sendMessage text sender channel now st).1]
         | _ => []
         end.
Proof.
  destruct r as [text sender channel now | c | c]; simpl;
    [done | by rewrite app_nil_r | by rewrite app_nil_r].
Qed.

Lemma serve_cons r rs st : serve (r :: rs) st = serve rs (handle st r).
Proof. reflexivity. Qed.

Lemma serve_snoc rs r st : serve (rs ++ [r]) st = handle (serve rs st) r.
Proof. unfold serve. by rewrite foldl_app. Qed.

Lemma Query_messages_send (text sender channel now c : string) (st : Server) :
  Query_messages c (sendMessage text sender channel now st).2 =
    Query_messages c st
      ++ (if decide (channel = c)
          then [(sendMessage text sender channel now st).1] else []).
Proof.
  unfold Query_messages. simpl. rewrite filter_app. by f_equal.
Qed.

(** X3: a message that was just sent is the last one [Query.messages]
    lists for its channel, after those listed before, and the lists of all
    other channels are as they were. *)
Theorem sent_message_is_listed_last_in_its_channel
    (text sender channel now c : string) (st : Server) :
  Query_messages c (sendMessage text sender channel now st).2 =
    Query_messages c st
      ++ (if decide (channel = c)
          then [(sendMessage text sender channel now st).1] else []).
Proof. apply Query_messages_send. Qed.

(** X4: in every state the server reaches from its start, the message at
    position i of the log (counting from 0) has the id i + 1 in decimal,
    so no two messages share an id. *)
Theorem message_ids_count_up (st : Server) :
  live st →
  (∀ i m, messages st !! i = Some m → id m = pretty (i + 1))
  ∧ NoDup (id <$> messages st).
Proof.
  intros [rs ->].
  assert (∀ i m, messages (serve rs boot) !! i = Some m → id m = pretty (i + 1))
    as Hids.
  { induction rs as [|r rs IH] using rev_ind.
    - intros i m Hi. simpl in Hi. by rewrite lookup_nil in Hi.
    - intros i m. rewrite serve_snoc, handle_messages. intros Hi.
      apply lookup_app_Some in Hi as [Hi | [Hge Hi]]; [by apply IH|].
      destruct r as [text sender channel now | c | c];
        [|by rewrite lookup_nil in Hi|by rewrite lookup_nil in Hi].
      apply list_lookup_singleton_Some in Hi as [Hi <-]. simpl.
      f_equal. lia. }
  split; [done|]. apply NoDup_alt. intros i j x Hi Hj.
  rewrite list_lookup_fmap in Hi, Hj.
  destruct (messages (serve rs boot) !! i) as [mi|] eqn:Hmi; [|done].
  destruct (messages (serve rs boot) !! j) as [mj|] eqn:Hmj; [|done].
  simpl in Hi, Hj. injection Hi as Hi. injection Hj as Hj.
  rewrite (Hids _ _ Hmi) in Hi. rewrite (Hids _ _ Hmj) in Hj.
  rewrite <- Hj in Hi. apply (inj pretty) in Hi. lia.
Qed.

Lemma message_ids_count_up_witness :
  live (serve [SendMessage "a" "1" "1" "t1"; Next "1"; SendMessage "b" "2" "1" "t2"] boot)
  ∧ NoDup (id <$> messages
             (serve [SendMessage "a" "1" "1" "t1"; Next "1";
                     SendMessage "b" "2" "1" "t2"] boot)).
Proof.
  split; [by eexists|].
  apply (message_ids_count_up
           (serve [SendMessage "a" "1" "1" "t1"; Next "1";
                   SendMessage "b" "2" "1" "t2"] boot)).
  by eexists.
Defined.

(** X5: the message log is append-only.  Whatever requests are served,
    the log before is a prefix of the log after and grows by one message
    per [sendMessage]; [next()] and [return()] never touch it. *)
Theorem message_log_only_grows (rs : list request) (st : Server) :
  messages st `prefix_of` messages (serve rs st)
  ∧ length (messages (serve rs st)) = length (messages st) + send_count rs.
Proof.
  revert st. induction rs as [|r rs IH]; intros st.
  - split; [done | simpl; lia].
  - rewrite serve_cons. destruct (IH (handle st r)) as [Hpre Hlen]. split.
    + etransitivity; [|exact Hpre]. rewrite handle_messages.
      by apply prefix_app_r.
    + rewrite Hlen, handle_messages, length_app.
      destruct r as [text sender channel now | c | c]; simpl; lia.
Qed.

(** X6: [Query.messages] lists, for a channel, the contents that were sent
    to that channel, in the order they were sent: serving requests adds to
    the list exactly the contents of the [sendMessage] calls for the
    channel. *)
Theorem channel_lists_what_was_sent_to_it (rs : list request) (st : Server) (c : string) :
  content <$> Query_messages c (serve rs st)
    = (content <$> Query_messages c st) ++ sent_to c rs.
Proof.
  revert st. induction rs as [|r rs IH]; intros st.
  - simpl. by rewrite app_nil_r.
  - rewrite serve_cons, IH.
    destruct r as [text sender channel now | c' | c'].
    + change (handle st (SendMessage text sender channel now))
        with (sendMessage text sender channel now st).2.
      rewrite Query_messages_send.
      simpl sent_to. destruct (decide (channel = c)).
      * rewrite fmap_app, <- app_assoc. done.
      * by rewrite app_nil_r.
    + done.
    + done.
Qed.

(** X7: for a message sent under the id of a stored user, [Message.sender]
    answers that very user. *)
Theorem known_sender_is_found
    (u : User) (text channel now : string) (st : Server) :
  u ∈ users →
  Message_sender (sendMessage text (user_id u) channel now st).1 = Some u.
Proof.
  intros Hu.
  apply (find_by_key user_id users (user_id u) u users_ids_distinct). done.
Qed.

Lemma known_sender_is_found_witness :
  {| user_id := "2"; username := "user2" |} ∈ users
  ∧ Message_sender (sendMessage "hi" "2" "1" "2024-05-01T10:00:00.000Z" boot).1
    = Some {| user_id := "2"; username := "user2" |}.
Proof.
  split; [apply list_elem_of_further, list_elem_of_here|].
  apply (known_sender_is_found {| user_id := "2"; username := "user2" |}
           "hi" "1" "2024-05-01T10:00:00.000Z" boot).
  apply list_elem_of_further, list_elem_of_here.
Defined.

(** * Delivery *)

(** X8: a message sent to a channel nobody has pulled on reaches no one:
    [sendMessage] appends it to the log and leaves the listeners'
    variables and every promise as they were. *)
Theorem message_to_unwatched_channel_only_reaches_the_log
    (text sender channel now : string) (st : Server) :
  listener_count ("MESSAGE_ADDED_" +:+ channel) (bus st) = 0 →
  bus (sendMessage text sender channel now st).2 = bus st
  ∧ messages (sendMessage text sender channel now st).2
    = messages st ++ [(sendMessage text sender channel now st).1].
Proof.
  intros Hnone. split; [|done].
  change (bus (sendMessage text sender channel now st).2)
    with (publish ("MESSAGE_ADDED_" +:+ channel)
            {| messageAdded := (sendMessage text sender channel now st).1 |}
            (bus st)).
  unfold publish. unfold listener_count in Hnone.
  by rewrite (nil_length_inv _ Hnone).
Qed.

Lemma message_to_unwatched_channel_only_reaches_the_log_witness :
  listener_count ("MESSAGE_ADDED_" +:+ "1") (bus boot) = 0
  ∧ bus (sendMessage "hi" "1" "1" "2024-05-01T10:00:00.000Z" boot).2 = bus boot.
Proof.
  split; [reflexivity|].
  exact (proj1 (message_to_unwatched_channel_only_reaches_the_log
                  "hi" "1" "1" "2024-05-01T10:00:00.000Z" boot eq_refl)).
Defined.

(** X9: a pull is answered once.  When a promise has been settled, no
    later [sendMessage], [next()] or [return()] changes its result. *)
Theorem settled_pull_keeps_its_result
    (rs : list request) (st : Server) (p : nat) (r : IterResult Payload) :
  promises (bus st) !! p = Some (Resolved r) →
  promises (bus (serve rs st)) !! p = Some (Resolved r).
Proof.
  revert st. induction rs as [|q rs IH]; intros st Hp; [done|].
  rewrite serve_cons. apply IH.
  destruct (handle_step st q) as [o ->]. by apply step_settled.
Qed.

Lemma settled_pull_keeps_its_result_witness :
  promises (bus (serve [Next "1"; SendMessage "hi" "1" "1" "t1"] boot)) !! 0
    = Some (Resolved
              {| result_value :=
                   val {| messageAdded :=
                            {| id := "1"; content := "hi"; createdAt := "t1";
                               senderId := "1"; channelId := "1" |} |};
                 done := false |})
  ∧ promises
      (bus (serve [Return "1"; SendMessage "yo" "2" "1" "t2"]
              (serve [Next "1"; SendMessage "hi" "1" "1" "t1"] boot))) !! 0
    = Some (Resolved
              {| result_value :=
                   val {| messageAdded :=
                            {| id := "1"; content := "hi"; createdAt := "t1";
                               senderId := "1"; channelId := "1" |} |};
                 done := false |}).
Proof.
  split; [vm_compute; reflexivity|].
  apply (settled_pull_keeps_its_result
           [Return "1"; SendMessage "yo" "2" "1" "t2"]
           (serve [Next "1"; SendMessage "hi" "1" "1" "t1"] boot) 0).
  vm_compute. reflexivity.
Defined.

(** X10: one [publish] answers every pull that is waiting on the topic,
    each with the same payload, whichever sessions made them. *)
Theorem every_waiting_pull_gets_the_payload
    {Ev} `{Truthy Ev} (w : World Ev) (t : string) (e : Ev) (p : nat) :
  reachable w →
  p ∈ outstanding t w →
  promises (publish t e w) !! p
    = Some (Resolved {| result_value := val e; done := false |}).
Proof.
  intros Hw%reachable_wf Hp. unfold outstanding in Hp.
  apply list_elem_of_omap in Hp as (a & Ha & Hres).
  unfold get_resolveNext in Hres.
  destruct (envs w !! a) as [[rn v]|] eqn:Henv; [|done]. simpl in Hres.
  destruct rn as [| |[q]] eqn:Hrn; simpl in Hres; try done.
  injection Hres as ->.
  pose proof Hw as (_ & _ & Hpend).
  destruct (Hpend a _ (ResolveOf p) Henv eq_refl) as [Hpending Hv].
  simpl in Hpending, Hv. subst v.
  eapply (publish_fires t e w p a); [done|].
  split; [by apply listeners_elem|]. split; done.
Qed.

Lemma every_waiting_pull_gets_the_payload_witness :
  reachable (run [ONext 0 "1"; ONext 1 "1"] (@init string))
  ∧ 1 ∈ outstanding "MESSAGE_ADDED_1" (run [ONext 0 "1"; ONext 1 "1"] (@init string))
  ∧ promises
      (publish "MESSAGE_ADDED_1" "hi" (run [ONext 0 "1"; ONext 1 "1"] (@init string)))
      !! 1
    = Some (Resolved {| result_value := val "hi"; done := false |}).
Proof.
  split; [by eexists|].
  split; [apply list_elem_of_further, list_elem_of_here|].
  apply (every_waiting_pull_gets_the_payload
           (run [ONext 0 "1"; ONext 1 "1"] (@init string)) "MESSAGE_ADDED_1" "hi" 1).
  - by eexists.
  - apply list_elem_of_further, list_elem_of_here.
Defined.

(** X11: a payload published while no pull is waiting on its topic
    answers nobody: no promise changes and the registry stays as it is.
    The listeners of the topic only overwrite their [value] with the
    payload, their [resolveNext] stays what it was, and the variables of
    all other listeners are untouched. *)
Theorem publish_without_waiting_pull_answers_nobody
    {Ev} `{Truthy Ev} (w : World Ev) (t : string) (e : Ev) :
  outstanding t w = [] →
  promises (publish t e w) = promises w
  ∧ pubsub (publish t e w) = pubsub w
  ∧ outstanding t (publish t e w) = []
  ∧ (∀ a env,
       envs w !! a = Some env →
       envs (publish t e w) !! a
         = Some (if decide (a ∈ pubsub_listeners t (pubsub w))
                 then {| resolveNext := resolveNext env; value := val e |}
                 else env)).
Proof.
  intros Hnone.
  assert (∀ a f, a ∈ pubsub_listeners t (pubsub w) → get_resolveNext a w ≠ val f)
    as Hidle.
  { intros a f Ha Hval.
    assert (target f ∈ outstanding t w) as Hin.
    { unfold outstanding. apply list_elem_of_omap. exists a. by rewrite Hval. }
    rewrite Hnone in Hin. by apply elem_of_nil in Hin. }
  split; [by apply notify_idle|].
  split; [apply publish_pubsub|]. split; [apply outstanding_publish|].
  intros a env Ha. by apply notify_idle_envs.
Qed.

Lemma publish_without_waiting_pull_answers_nobody_witness :
  outstanding "MESSAGE_ADDED_1"
    (run [ONext 0 "1"; OPublish "MESSAGE_ADDED_1" "a"] (@init string)) = []
  ∧ envs
      (publish "MESSAGE_ADDED_1" "b"
         (run [ONext 0 "1"; OPublish "MESSAGE_ADDED_1" "a"] (@init string)))
      !! 0
    = Some {| resolveNext := null; value := val "b" |}.
Proof.
  split; [reflexivity|].
  exact (proj2 (proj2 (proj2 (publish_without_waiting_pull_answers_nobody
                  (run [ONext 0 "1"; OPublish "MESSAGE_ADDED_1" "a"] (@init string))
                  "MESSAGE_ADDED_1" "b" eq_refl)))
               0 {| resolveNext := null; value := val "a" |} eq_refl).
Defined.

(** X12: [next()] never answers end-of-sequence.  Whatever is called after
    it, [return()] included, its promise is either still pending or
    settled with [done: false] and a payload that was published to the
    session's topic after the call. *)
Theorem next_never_answers_end_of_sequence
    {Ev} `{Truthy Ev} (w : World Ev) (c : string) (ops : list (op Ev))
    (r : IterResult Ev) :
  reachable w →
  promises (run ops (next (subscribe c) w).2) !! (next (subscribe c) w).1
    = Some (Resolved r) →
  done r = false
  ∧ ∃ e, result_value r = val e ∧ e ∈ published (topicName (subscribe c)) ops.
Proof.
  intros Hw%reachable_wf Hr. rewrite pull_outcome in Hr by done.
  unfold outcome in Hr.
  destruct (first_published (topicName (subscribe c)) ops) as [e|] eqn:Hfirst;
    [|done].
  injection Hr as <-. split; [done|]. exists e. split; [done|].
  by apply head_Some_elem_of.
Qed.

Lemma next_never_answers_end_of_sequence_witness :
  reachable (@init string)
  ∧ promises
      (run [OReturn 0 "1"; OPublish "MESSAGE_ADDED_1" "hi"]
           (next (subscribe "1") (@init string)).2)
      !! (next (subscribe "1") (@init string)).1
    = Some (Resolved {| result_value := val "hi"; done := false |})
  ∧ done {| result_value := val "hi"; done := false |} = false.
Proof.
  split; [by exists [] |]. split; [reflexivity|].
  exact (proj1 (next_never_answers_end_of_sequence (@init string) "1"
                  [OReturn 0 "1"; OPublish "MESSAGE_ADDED_1" "hi"]
                  {| result_value := val "hi"; done := false |}
                  reachable_init eq_refl)).
Defined.

(** X13: what a pull is answered with depends only on what is published
    to its topic after it.  Two continuations that publish the same
    payloads to the topic, however they differ in the pulls and closes of
    any session and in what they publish elsewhere, leave the promise in
    the same state. *)
Theorem pull_sees_only_its_topic
    {Ev} `{Truthy Ev} (w : World Ev) (c : string) (ops ops' : list (op Ev)) :
  reachable w →
  published (topicName (subscribe c)) ops = published (topicName (subscribe c)) ops' →
  promises (run ops (next (subscribe c) w).2) !! (next (subscribe c) w).1
    = promises (run ops' (next (subscribe c) w).2) !! (next (subscribe c) w).1.
Proof.
  intros Hw%reachable_wf Hsame. rewrite !pull_outcome by done.
  unfold outcome, first_published. by rewrite Hsame.
Qed.

Lemma pull_sees_only_its_topic_witness :
  reachable (@init string)
  ∧ published (topicName (subscribe "1"))
      [ONext 1 "1"; OPublish "MESSAGE_ADDED_2" "x"; OPublish "MESSAGE_ADDED_1" "hi"]
    = published (topicName (subscribe "1"))
        [OReturn 0 "1"; OPublish "MESSAGE_ADDED_1" "hi"; ONext 2 "2"]
  ∧ promises
      (run [ONext 1 "1"; OPublish "MESSAGE_ADDED_2" "x"; OPublish "MESSAGE_ADDED_1" "hi"]
           (next (subscribe "1") (@init string)).2)
      !! (next (subscribe "1") (@init string)).1
    = promises
        (run [OReturn 0 "1"; OPublish "MESSAGE_ADDED_1" "hi"; ONext 2 "2"]
             (next (subscribe "1") (@init string)).2)
        !! (next (subscribe "1") (@init string)).1.
Proof.
  split; [by exists [] |]. split; [reflexivity|].
  exact (pull_sees_only_its_topic (@init string) "1"
           [ONext 1 "1"; OPublish "MESSAGE_ADDED_2" "x"; OPublish "MESSAGE_ADDED_1" "hi"]
           [OReturn 0 "1"; OPublish "MESSAGE_ADDED_1" "hi"; ONext 2 "2"]
           reachable_init eq_refl).
Defined.
